(** * Entropy scorer and tree scanner of the sensitive-data entropy analyzer

    A shallow embedding of [src/main.py]: [calculate_entropy],
    [analyze_file], [analyze_directory], [generate_fake_sensitive_data]
    and [main].

    Numbers.  Python's [float] is idealised as the real numbers [R] of the
    Standard Library: [float(c) / n] is the quotient of two naturals injected
    into [R], and [math.log(x, 2)] is [ln x / ln 2], the quotient CPython
    itself computes.  Rounding is therefore outside this development.

    Bytes.  A [bytes] object is a [list byte]; [data.count(x)] for an integer
    [x] counts the positions that hold the byte of value [x]. *)

From Stdlib Require Import ZArith DecimalString DecimalNat.
From Stdlib Require Import Strings.String Strings.Ascii Strings.Byte.
From Stdlib Require Import Reals Lra.
From Stdlib Require Import Arith Lia Bool List.
From Stdlib Require Import Sorting.Permutation.
Import ListNotations.

Open Scope R_scope.

(** ** The scorer *)

Definition bytes := list byte.

(** [data.count(x)] with [x] an integer. *)
Fixpoint count (x : nat) (data : bytes) : nat :=
  match data with
  | [] => 0%nat
  | b :: rest => ((if Nat.eqb (Byte.to_nat b) x then 1 else 0) + count x rest)%nat
  end.

(** [math.log(x, base)]. *)
Definition log (x base : R) : R := ln x / ln base.

(** [range(256)]. *)
Definition range256 : list nat := seq 0 256.

(** One turn of the loop body of [calculate_entropy]: the accumulator
    [entropy] after the byte value [x] has been visited. *)
Definition entropy_step (data : bytes) (entropy : R) (x : nat) : R :=
  let p_x := INR (count x data) / INR (length data) in
  if Rlt_dec 0 p_x then entropy + - p_x * log p_x 2 else entropy.

Definition calculate_entropy (data : bytes) : R :=
  match data with
  | [] => 0
  | _ :: _ => fold_left (entropy_step data) range256 0
  end.

(** ** The entropy of the specification

    Section 4.1 of the specification, word for word: [p(v)] is the relative
    frequency of the byte value [v], and the entropy is the sum of
    [- p(v) * log2 (p(v))] over the values [v] of [0..255] with [p(v) > 0]. *)

Definition Rsum (l : list R) : R := fold_right Rplus 0 l.

Definition log2 (x : R) : R := ln x / ln 2.

(** The count of [v] in [d]. *)
Definition occurrences (v : nat) (d : bytes) : nat :=
  count_occ Nat.eq_dec (map Byte.to_nat d) v.

Definition p (d : bytes) (v : nat) : R :=
  INR (occurrences v d) / INR (length d).

Definition positive_p (d : bytes) (v : nat) : bool :=
  if Rlt_dec 0 (p d v) then true else false.

Definition shannon_entropy (d : bytes) : R :=
  Rsum (map (fun v => - (p d v * log2 (p d v)))
            (filter (positive_p d) range256)).

(** ** Auxiliary sums *)

(** What the byte value [x] adds to the accumulator [entropy]. *)
Definition term (data : bytes) (x : nat) : R :=
  let p_x := INR (count x data) / INR (length data) in
  if Rlt_dec 0 p_x then - p_x * log p_x 2 else 0.

(** The sum of [f] over a list of byte values. *)
Definition total (f : nat -> nat) (l : list nat) : nat :=
  fold_right (fun v acc => (f v + acc)%nat) 0%nat l.

(** Each of the 256 byte values once. *)
Definition every_byte : bytes :=
  [x00; x01; x02; x03; x04; x05; x06; x07; x08; x09; x0a; x0b; x0c; x0d; x0e; x0f;
   x10; x11; x12; x13; x14; x15; x16; x17; x18; x19; x1a; x1b; x1c; x1d; x1e; x1f;
   x20; x21; x22; x23; x24; x25; x26; x27; x28; x29; x2a; x2b; x2c; x2d; x2e; x2f;
   x30; x31; x32; x33; x34; x35; x36; x37; x38; x39; x3a; x3b; x3c; x3d; x3e; x3f;
   x40; x41; x42; x43; x44; x45; x46; x47; x48; x49; x4a; x4b; x4c; x4d; x4e; x4f;
   x50; x51; x52; x53; x54; x55; x56; x57; x58; x59; x5a; x5b; x5c; x5d; x5e; x5f;
   x60; x61; x62; x63; x64; x65; x66; x67; x68; x69; x6a; x6b; x6c; x6d; x6e; x6f;
   x70; x71; x72; x73; x74; x75; x76; x77; x78; x79; x7a; x7b; x7c; x7d; x7e; x7f;
   x80; x81; x82; x83; x84; x85; x86; x87; x88; x89; x8a; x8b; x8c; x8d; x8e; x8f;
   x90; x91; x92; x93; x94; x95; x96; x97; x98; x99; x9a; x9b; x9c; x9d; x9e; x9f;
   xa0; xa1; xa2; xa3; xa4; xa5; xa6; xa7; xa8; xa9; xaa; xab; xac; xad; xae; xaf;
   xb0; xb1; xb2; xb3; xb4; xb5; xb6; xb7; xb8; xb9; xba; xbb; xbc; xbd; xbe; xbf;
   xc0; xc1; xc2; xc3; xc4; xc5; xc6; xc7; xc8; xc9; xca; xcb; xcc; xcd; xce; xcf;
   xd0; xd1; xd2; xd3; xd4; xd5; xd6; xd7; xd8; xd9; xda; xdb; xdc; xdd; xde; xdf;
   xe0; xe1; xe2; xe3; xe4; xe5; xe6; xe7; xe8; xe9; xea; xeb; xec; xed; xee; xef;
   xf0; xf1; xf2; xf3; xf4; xf5; xf6; xf7; xf8; xf9; xfa; xfb; xfc; xfd; xfe; xff].

(** ** Effects of the scanner

    The scanner calls [logging] and may raise.  A computation yields the
    records it logged, in order, and either a value or the exception that
    left it. *)

(** The exceptions at play.  [FileNotFoundError], [PermissionError],
    [IsADirectoryError] and [NotADirectoryError] are subclasses of
    [OSError]; [IOError] is another name of [OSError]; [MemoryError] is
    not an [OSError] (reading a file too large for memory raises it). *)
Inductive exn : Type :=
| FileNotFoundError
| PermissionError
| IsADirectoryError
| NotADirectoryError
| OSError
| MemoryError.

(** [isinstance(e, FileNotFoundError)]. *)
Definition is_FileNotFoundError (e : exn) : bool :=
  match e with
  | FileNotFoundError => true
  | _ => false
  end.

(** [isinstance(e, OSError)], which is also [isinstance(e, IOError)]. *)
Definition is_OSError (e : exn) : bool :=
  match e with
  | MemoryError => false
  | _ => true
  end.

(** The calls to [logging], one constructor per call site. *)
Inductive record : Type :=
| debug_entropy (filepath : string) (entropy : R)
| warning_exceeds (filepath : string) (threshold entropy : R)
| error_file_not_found (filepath : string)
| error_reading_file (filepath : string) (e : exn)
| error_directory_not_found (dirpath : string)
| error_scanning_directory (dirpath : string) (e : exn).

Inductive outcome (A : Type) : Type :=
| Return (a : A)
| Raise (e : exn).

Arguments Return {A} a.
Arguments Raise {A} e.

Definition M (A : Type) : Type := (list record * outcome A)%type.

Definition ret {A} (a : A) : M A := ([], Return a).

Definition raise {A} (e : exn) : M A := ([], Raise e).

Definition logging (r : record) : M unit := ([r], Return tt).

Definition bind {A B} (m : M A) (k : A -> M B) : M B :=
  match m with
  | (l, Return a) => let (l', o) := k a in (l ++ l', o)
  | (l, Raise e) => (l, Raise e)
  end.

Notation "x <- m ;; k" := (bind m (fun x => k))
  (at level 61, m at next level, right associativity).
Notation "m ;; k" := (bind m (fun _ => k))
  (at level 61, right associativity).

(** [try: m  except ...: handler], the handler re-raising what no clause
    matches. *)
Definition try_except {A} (m : M A) (handler : exn -> M A) : M A :=
  match m with
  | (l, Return a) => (l, Return a)
  | (l, Raise e) => let (l', o) := handler e in (l ++ l', o)
  end.

(** [for x in xs: body(x)]. *)
Definition for_each {A} (body : A -> M unit) : list A -> M unit :=
  fix loop (xs : list A) : M unit :=
    match xs with
    | [] => ret tt
    | x :: rest => body x ;; loop rest
    end.

(** The value returned, if any. *)
Definition returns {A} (m : M A) (a : A) : Prop := snd m = Return a.

(** The records logged. *)
Definition logged {A} (m : M A) : list record := fst m.

(** No [OSError] leaves [m]. *)
Definition no_OSError {A} (m : M A) : Prop :=
  match snd m with
  | Return _ => True
  | Raise e => is_OSError e = false
  end.

(** ** The file system as the scanner sees it

    A regular file carries what [open(path, "rb")] followed by [f.read()]
    gives: the bytes, or the exception raised.  A directory carries what
    [os.scandir] gives: the entries by name, or the exception raised.
    Anything else (socket, device, dangling link) answers false to both
    [is_file()] and [is_dir()]; it carries what opening and reading it
    gives (a device may well be read, a dangling link raises
    [FileNotFoundError]) and the exception that [os.scandir] raises on it.

    The tree is finite, [is_file()] and [is_dir()] answer without raising,
    and a listing either fails as a whole or yields all its entries; the
    interpreter's bound on the depth of recursion is not modelled. *)
#[warnings="-register-all"] Inductive fsobj : Type :=
| File (read : exn + bytes)
| Dir (scan : exn + list (string * fsobj))
| Other (read : exn + bytes) (scan : exn).

Definition entry : Type := (string * fsobj)%type.

(** [entry.is_file()]. *)
Definition is_file (o : fsobj) : bool :=
  match o with
  | File _ => true
  | _ => false
  end.

(** [entry.is_dir()]. *)
Definition is_dir (o : fsobj) : bool :=
  match o with
  | Dir _ => true
  | _ => false
  end.

(** [open(path, "rb")] and [f.read()] on the object at [path]. *)
Definition open_read (o : fsobj) : M bytes :=
  match o with
  | File (inr data) => ret data
  | File (inl e) => raise e
  | Dir _ => raise IsADirectoryError
  | Other (inr data) _ => ret data
  | Other (inl e) _ => raise e
  end.

(** [os.scandir(path)] on the object at [path]. *)
Definition scandir (o : fsobj) : M (list entry) :=
  match o with
  | Dir (inr entries) => ret entries
  | Dir (inl e) => raise e
  | File _ => raise NotADirectoryError
  | Other _ e => raise e
  end.

Fixpoint endswith_sep (s : string) : bool :=
  match s with
  | EmptyString => false
  | String c EmptyString => Ascii.eqb c "/"%char
  | String _ rest => endswith_sep rest
  end.

(** [entry.path]: the scanned path, a separator unless the path is empty
    or ends with one, and the entry's name. *)
Definition entry_path (dirpath : string) (nm : string) : string :=
  match dirpath with
  | EmptyString => nm
  | _ => if endswith_sep dirpath then (dirpath ++ nm)%string
         else (dirpath ++ "/" ++ nm)%string
  end.

(** ** The scanner

    Both functions take, next to the path, the object [o] that the path
    names: the path is what the records carry, the object is what [open]
    and [os.scandir] find there. *)

Definition analyze_file (o : fsobj) (filepath : string) (threshold : R) : M bool :=
  try_except
    (data <- open_read o ;;
     let entropy := calculate_entropy data in
     logging (debug_entropy filepath entropy) ;;
     if Rgt_dec entropy threshold
     then logging (warning_exceeds filepath threshold entropy) ;; ret true
     else ret false)
    (fun e =>
       if is_FileNotFoundError e
       then logging (error_file_not_found filepath) ;; ret false
       else if is_OSError e
       then logging (error_reading_file filepath e) ;; ret false
       else raise e).

(** The [except] clauses of [analyze_directory]. *)
Definition directory_handler (dirpath : string) (e : exn) : M unit :=
  if is_FileNotFoundError e
  then logging (error_directory_not_found dirpath)
  else if is_OSError e
  then logging (error_scanning_directory dirpath e)
  else raise e.

(** The [match] is [os.scandir(dirpath)] written in place, so that the
    recursive call is on a part of [o]; [analyze_directory_eq] below states
    it with [scandir]. *)
Fixpoint analyze_directory (o : fsobj) (dirpath : string) (threshold : R)
    (recursive : bool) {struct o} : M unit :=
  try_except
    (match o with
     | Dir (inr entries) =>
         for_each
           (fun en : entry =>
              let (nm, child) := en in
              if is_file child
              then analyze_file child (entry_path dirpath nm) threshold ;; ret tt
              else if is_dir child && recursive
              then analyze_directory child (entry_path dirpath nm) threshold recursive
              else ret tt)
           entries
     | Dir (inl e) => raise e
     | File _ => raise NotADirectoryError
     | Other _ e => raise e
     end)
    (directory_handler dirpath).

(** The body of the loop of [analyze_directory]. *)
Definition visit (dirpath : string) (threshold : R) (recursive : bool)
    (en : entry) : M unit :=
  let (nm, child) := en in
  if is_file child
  then analyze_file child (entry_path dirpath nm) threshold ;; ret tt
  else if is_dir child && recursive
  then analyze_directory child (entry_path dirpath nm) threshold recursive
  else ret tt.

(** ** Further notions on byte sequences *)

(** The byte value [x] occurs in [data]. *)
Definition occurs (data : bytes) (x : nat) : bool :=
  negb (Nat.eqb (count x data) 0).

(** The number of byte values that occur in [data]. *)
Definition distinct_values (data : bytes) : nat :=
  length (filter (occurs data) range256).

(** [data * k]: [k] copies of [data], one after the other. *)
Fixpoint times (data : bytes) (k : nat) : bytes :=
  match k with
  | O => []
  | S k' => data ++ times data k'
  end.

(** ** Further notions on the scanner *)



(** The path a record is about. *)
Definition record_path (r : record) : string :=
  match r with
  | debug_entropy filepath _ => filepath
  | warning_exceeds filepath _ _ => filepath
  | error_file_not_found filepath => filepath
  | error_reading_file filepath _ => filepath
  | error_directory_not_found dirpath => dirpath
  | error_scanning_directory dirpath _ => dirpath
  end.

(** The record comes from [logging.warning]. *)
Definition is_warning (r : record) : bool :=
  match r with
  | warning_exceeds _ _ _ => true
  | _ => false
  end.

(** The record comes from [logging.debug]. *)
Definition is_debug (r : record) : bool :=
  match r with
  | debug_entropy _ _ => true
  | _ => false
  end.

(** ** The generator and the entry point

    [generate_fake_sensitive_data] and [main] log records of their own, so
    their computations carry a list of records of any type [L]. *)

Section Journal.

Variable L : Type.

Definition W (A : Type) : Type := (list L * outcome A)%type.

Definition retW {A} (a : A) : W A := ([], Return a).

Definition raiseW {A} (e : exn) : W A := ([], Raise e).

Definition logW (r : L) : W unit := ([r], Return tt).

Definition bindW {A B} (m : W A) (k : A -> W B) : W B :=
  match m with
  | (l, Return a) => let (l', o) := k a in (l ++ l', o)
  | (l, Raise e) => (l, Raise e)
  end.

Definition try_exceptW {A} (m : W A) (handler : exn -> W A) : W A :=
  match m with
  | (l, Return a) => (l, Return a)
  | (l, Raise e) => let (l', o) := handler e in (l ++ l', o)
  end.

Definition for_eachW {A} (body : A -> W unit) : list A -> W unit :=
  fix loop (xs : list A) : W unit :=
    match xs with
    | [] => retW tt
    | x :: rest => bindW (body x) (fun _ => loop rest)
    end.

End Journal.

Arguments retW {L A} a.
Arguments raiseW {L A} e.
Arguments logW {L} r.
Arguments bindW {L A B} m k.
Arguments try_exceptW {L A} m handler.
Arguments for_eachW {L A} body _.

(** [str(i)] for an integer [i >= 0]. *)
Definition str (i : nat) : string := NilEmpty.string_of_uint (Nat.to_uint i).

Definition startswith_sep (s : string) : bool :=
  match s with
  | String c _ => Ascii.eqb c "/"%char
  | EmptyString => false
  end.

(** [os.path.join(a, b)] of [posixpath]. *)
Definition os_path_join (a b : string) : string :=
  if startswith_sep b then b
  else match a with
       | EmptyString => b
       | _ => if endswith_sep a then (a ++ b)%string
              else (a ++ "/" ++ b)%string
       end.

(** The name of the [i]-th generated file. *)
Definition filename (output_dir : string) (i : nat) : string :=
  os_path_join output_dir ("fake_sensitive_data_" ++ str i ++ ".txt")%string.

(** What the generator meets: whether [output_dir] exists, what
    [os.makedirs] does when it is called (nothing, or raise), and what
    writing the [i]-th file does, from [open] to the end of the [with]
    block (nothing, or raise).  The text written comes from [Faker] and
    plays no part in what is logged. *)
Record gen_world : Type := {
  output_dir_exists : bool;
  makedirs_result : option exn;
  write_result : nat -> option exn
}.

Inductive gen_record : Type :=
| info_generated (name : string)
| error_writing (name : string) (e : exn).

(** [range(n)] for an integer [n], negative ones included. *)
Definition range (n : Z) : list nat := seq 0 (Z.to_nat n).

(** One turn of the loop of the generator: the [try] around the writing of
    the [i]-th file. *)
Definition generate_file (w : gen_world) (output_dir : string) (i : nat)
  : W gen_record unit :=
  let name := filename output_dir i in
  try_exceptW
    (bindW
       match write_result w i with
       | None => retW tt
       | Some e => raiseW e
       end
       (fun _ => logW (info_generated name)))
    (fun e =>
       if is_OSError e then logW (error_writing name e) else raiseW e).

Definition generate_fake_sensitive_data (w : gen_world) (num_files : Z)
    (output_dir : string) : W gen_record unit :=
  bindW
    (if negb (output_dir_exists w)
     then match makedirs_result w with
          | None => retW tt
          | Some e => raiseW e
          end
     else retW tt)
    (fun _ => for_eachW (generate_file w output_dir) (range num_files)).

(** A sample of what the generator may meet: the directory is missing and
    can be created, and the write of the file of index 1 is refused. *)
Definition sample_gen_world : gen_world :=
  {| output_dir_exists := false;
     makedirs_result := None;
     write_result := fun i => if Nat.eqb i 1 then Some PermissionError else None |}.

(** The arguments parsed by [setup_argparse]. *)
Record args : Type := {
  args_path : string;
  args_threshold : R;
  args_recursive : bool;
  args_verbose : bool;
  args_generate : bool;
  args_num_files : Z;
  args_output_dir : string
}.

Inductive main_record : Type :=
| from_scan (r : record)
| from_generate (g : gen_record)
| error_path_not_found (path : string).

(** The level of the root logger lets a record through: [DEBUG] with
    [--verbose], [INFO] without. *)
Definition emitted (verbose : bool) (r : main_record) : bool :=
  match r with
  | from_scan s => verbose || negb (is_debug s)
  | _ => true
  end.

(** The records of a scan, as records of [main]. *)
Definition of_scan {A} (m : M A) : W main_record unit :=
  (map from_scan (fst m),
   match snd m with
   | Return _ => Return tt
   | Raise e => Raise e
   end).

Definition of_generate (m : W gen_record unit) : W main_record unit :=
  (map from_generate (fst m), snd m).

(** [main], given what lies at [args.path] (nothing when [None]) and what
    the generator meets; the result holds the records that the level lets
    through. *)
Definition main (at_path : option fsobj) (w : gen_world) (a : args)
  : W main_record unit :=
  let run :=
    if args_generate a
    then of_generate
           (generate_fake_sensitive_data w (args_num_files a) (args_output_dir a))
    else match at_path with
         | Some (File rd) =>
             of_scan (analyze_file (File rd) (args_path a) (args_threshold a))
         | Some (Dir sc) =>
             of_scan (analyze_directory (Dir sc) (args_path a)
                        (args_threshold a) (args_recursive a))
         | _ => logW (error_path_not_found (args_path a))
         end
  in (filter (emitted (args_verbose a)) (fst run), snd run).

(** * Properties *)

(** ** Sums over lists of reals *)

Section Sums.

Variable A : Type.
Implicit Types (f g : A -> R) (l : list A).

Lemma Rsum_le f g l :
  (forall a, In a l -> f a <= g a) ->
  Rsum (map f l) <= Rsum (map g l).
Proof.
  induction l as [|a l IH]; intros H; simpl.
  - lra.
  - assert (f a <= g a) by (apply H; now left).
    assert (Rsum (map f l) <= Rsum (map g l))
      by (apply IH; intros; apply H; now right).
    lra.
Qed.

Lemma Rsum_affine f l (a b : R) :
  Rsum (map (fun v => a * f v + b) l)
  = a * Rsum (map f l) + b * INR (length l).
Proof.
  induction l as [|x l IH].
  - simpl. ring.
  - change (length (x :: l)) with (S (length l)).
    rewrite S_INR. simpl. rewrite IH. ring.
Qed.

Lemma Rsum_nonneg f l :
  (forall a, In a l -> 0 <= f a) -> 0 <= Rsum (map f l).
Proof.
  induction l as [|a l IH]; intros H; simpl.
  - lra.
  - assert (0 <= f a) by (apply H; now left).
    assert (0 <= Rsum (map f l)) by (apply IH; intros; apply H; now right).
    lra.
Qed.

End Sums.

Arguments Rsum_le {A} f g l _.
Arguments Rsum_affine {A} f l a b.
Arguments Rsum_nonneg {A} f l _.

(** ** Counting *)

Lemma count_le_length x data : (count x data <= length data)%nat.
Proof.
  induction data as [|b rest IH]; simpl.
  - lia.
  - destruct (Nat.eqb (Byte.to_nat b) x); lia.
Qed.

(** [data.count(x)] is the number of occurrences of the value [x]. *)
Lemma count_occurrences x data : count x data = occurrences x data.
Proof.
  unfold occurrences. induction data as [|b rest IH]; simpl.
  - reflexivity.
  - rewrite IH. destruct (Nat.eq_dec (Byte.to_nat b) x) as [E|E].
    + apply Nat.eqb_eq in E. now rewrite E.
    + apply Nat.eqb_neq in E. now rewrite E.
Qed.

Lemma count_Permutation x d d' : Permutation d d' -> count x d = count x d'.
Proof.
  induction 1 as [|b l l' _ IH|a b l|l l' l'' _ IH1 _ IH2]; simpl.
  - reflexivity.
  - now rewrite IH.
  - lia.
  - congruence.
Qed.

Lemma total_indicator k start len :
  total (fun v => if Nat.eqb k v then 1%nat else 0%nat) (seq start len)
  = if andb (Nat.leb start k) (Nat.ltb k (start + len)) then 1%nat else 0%nat.
Proof.
  revert start. induction len as [|len IH]; intros start; simpl.
  - destruct (Nat.leb_spec start k), (Nat.ltb_spec k (start + 0)); simpl; lia.
  - rewrite IH.
    destruct (Nat.eqb_spec k start) as [->|Hne].
    + destruct (Nat.leb_spec (S start) start); [lia|].
      destruct (Nat.leb_spec start start); [|lia].
      destruct (Nat.ltb_spec start (start + S len)); [|lia].
      reflexivity.
    + destruct (Nat.leb_spec (S start) k), (Nat.leb_spec start k),
        (Nat.ltb_spec k (S start + len)), (Nat.ltb_spec k (start + S len));
        simpl; lia.
  Qed.

Lemma total_plus f g l :
  total (fun v => (f v + g v)%nat) l = (total f l + total g l)%nat.
Proof.
  induction l as [|a l IH]; simpl.
  - reflexivity.
  - rewrite IH. lia.
Qed.

Lemma total_ext f g l :
  (forall v, f v = g v) -> total f l = total g l.
Proof.
  intros H. induction l as [|a l IH]; simpl.
  - reflexivity.
  - now rewrite H, IH.
Qed.

Lemma total_count data : total (fun v => count v data) range256 = length data.
Proof.
  induction data as [|b rest IH].
  - unfold range256. generalize (seq 0 256). intros l.
    induction l as [|a l IHl]; simpl; [reflexivity | exact IHl].
  - rewrite (total_ext _ (fun v => ((if Nat.eqb (Byte.to_nat b) v then 1 else 0)
                                     + count v rest)%nat)) by reflexivity.
    rewrite total_plus, IH. unfold range256. rewrite total_indicator.
    pose proof (Byte.to_nat_bounded b) as Hb.
    destruct (Nat.leb_spec 0 (Byte.to_nat b)); [|lia].
    destruct (Nat.ltb_spec (Byte.to_nat b) (0 + 256)); [|lia].
    reflexivity.
Qed.

Lemma Rsum_INR (f : nat -> nat) l :
  Rsum (map (fun v => INR (f v)) l) = INR (total f l).
Proof.
  induction l as [|a l IH]; simpl.
  - reflexivity.
  - rewrite IH, plus_INR. reflexivity.
Qed.

(** ** The loop of [calculate_entropy] as a sum *)

Lemma fold_left_entropy_step data l a :
  fold_left (entropy_step data) l a = a + Rsum (map (term data) l).
Proof.
  revert a. induction l as [|x l IH]; intros a; simpl.
  - ring.
  - rewrite IH. unfold entropy_step, term.
    destruct (Rlt_dec 0 (INR (count x data) / INR (length data))); ring.
Qed.

Lemma calculate_entropy_sum data :
  data <> [] -> calculate_entropy data = Rsum (map (term data) range256).
Proof.
  destruct data as [|b rest]; [congruence|intros _].
  unfold calculate_entropy. rewrite fold_left_entropy_step. ring.
Qed.

Lemma Rsum_filter {A} (c : A -> bool) (g : A -> R) l :
  Rsum (map g (filter c l)) = Rsum (map (fun v => if c v then g v else 0) l).
Proof.
  induction l as [|a l IH]; simpl.
  - reflexivity.
  - destruct (c a); simpl; rewrite IH; ring.
Qed.

(** ** Facts on the logarithm *)

Lemma ln_2_pos : 0 < ln 2.
Proof. pose proof ln_lt_2. lra. Qed.

Lemma ln_256 : ln 256 = 8 * ln 2.
Proof.
  replace 256 with (2 ^ 8) by (simpl; ring).
  rewrite ln_pow by lra. simpl. ring.
Qed.

Lemma ln_le_minus_1 y : 0 < y -> ln y <= y - 1.
Proof.
  intros Hy. pose proof (exp_ineq1_le (ln y)) as H.
  rewrite exp_ln in H by assumption. lra.
Qed.

Lemma ln_nonpos q : 0 < q -> q <= 1 -> ln q <= 0.
Proof.
  intros H0 H1. pose proof (ln_le_minus_1 q H0). lra.
Qed.

(** ** The relative frequencies *)

Lemma frequency_range x data :
  data <> [] ->
  0 <= INR (count x data) / INR (length data) <= 1.
Proof.
  intros Hne.
  assert (Hlen : 0 < INR (length data)).
  { apply lt_0_INR. destruct data; [congruence | simpl; lia]. }
  pose proof (pos_INR (count x data)) as Hc.
  pose proof (le_INR _ _ (count_le_length x data)) as Hle.
  split.
  - apply Rmult_le_pos; [assumption|]. left. now apply Rinv_0_lt_compat.
  - apply (Rmult_le_reg_r (INR (length data))); [assumption|].
    unfold Rdiv. rewrite Rmult_assoc, Rinv_l by lra. lra.
Qed.

Lemma frequencies_sum_1 data :
  data <> [] ->
  Rsum (map (fun x => INR (count x data) / INR (length data)) range256) = 1.
Proof.
  intros Hne.
  assert (Hlen : 0 < INR (length data)).
  { apply lt_0_INR. destruct data; [congruence | simpl; lia]. }
  pose proof (Rsum_affine (fun x => INR (count x data)) range256
                (/ INR (length data)) 0) as H.
  rewrite (Rsum_INR (fun x => count x data)), total_count in H.
  rewrite <- (Rinv_l (INR (length data))) by lra.
  rewrite <- (Rplus_0_r (_ * _)), <- (Rmult_0_l (INR (length range256))).
  rewrite <- H. f_equal. apply map_ext. intros a. unfold Rdiv. ring.
Qed.

(** ** Bounds on one term *)

Lemma term_nonneg x data : data <> [] -> 0 <= term data x.
Proof.
  intros Hne. unfold term; cbv zeta.
  pose proof (frequency_range x data Hne) as [_ H1].
  destruct (Rlt_dec 0 _) as [Hpos|_]; [|lra].
  pose proof (ln_nonpos _ Hpos H1) as Hln. pose proof ln_2_pos as H2.
  unfold log, Rdiv.
  assert (0 <= - ln (INR (count x data) * / INR (length data)) * / ln 2).
  { apply Rmult_le_pos; [lra|]. left. now apply Rinv_0_lt_compat. }
  replace (- (INR (count x data) * / INR (length data))
           * (ln (INR (count x data) * / INR (length data)) * / ln 2))
    with ((INR (count x data) * / INR (length data))
          * (- ln (INR (count x data) * / INR (length data)) * / ln 2)) by ring.
  apply Rmult_le_pos; lra.
Qed.

Lemma term_gibbs q :
  0 < q -> - q * log q 2 <= 8 * q + (/ 256 - q) / ln 2.
Proof.
  intros Hq. pose proof ln_2_pos as H2.
  assert (Hy : 0 < / (256 * q)) by (apply Rinv_0_lt_compat; lra).
  pose proof (ln_le_minus_1 _ Hy) as H.
  rewrite ln_Rinv, ln_mult, ln_256 in H by lra.
  assert (Hm : q * (- (8 * ln 2 + ln q)) <= q * (/ (256 * q) - 1))
    by (apply Rmult_le_compat_l; lra).
  replace (q * (/ (256 * q) - 1)) with (/ 256 - q) in Hm by (field; lra).
  unfold log. apply (Rmult_le_reg_r (ln 2)); [assumption|].
  replace (- q * (ln q / ln 2) * ln 2) with (- q * ln q) by (field; lra).
  replace ((8 * q + (/ 256 - q) / ln 2) * ln 2)
    with (8 * q * ln 2 + (/ 256 - q)) by (field; lra).
  lra.
Qed.

Lemma term_upper x data :
  data <> [] ->
  term data x
  <= 8 * (INR (count x data) / INR (length data)) + (/ 256 - INR (count x data) / INR (length data)) / ln 2.
Proof.
  intros Hne. unfold term; cbv zeta.
  pose proof (frequency_range x data Hne) as [H0 _].
  destruct (Rlt_dec 0 _) as [Hpos|Hnpos].
  - now apply term_gibbs.
  - assert (Hz : INR (count x data) / INR (length data) = 0) by lra.
    rewrite Hz. pose proof ln_2_pos.
    assert (0 < / 256 / ln 2).
    { apply Rmult_lt_0_compat; [lra|]. now apply Rinv_0_lt_compat. }
    lra.
Qed.

(** ** Inputs with a known score *)

Lemma Rsum_zero {A} (f : A -> R) l :
  (forall a, In a l -> f a = 0) -> Rsum (map f l) = 0.
Proof.
  induction l as [|a l IH]; intros H; simpl.
  - reflexivity.
  - rewrite (H a) by now left.
    rewrite IH by (intros; apply H; now right). ring.
Qed.

Lemma log_1 base : log 1 base = 0.
Proof. unfold log. rewrite ln_1. unfold Rdiv. ring. Qed.

Lemma term_absent x data : count x data = 0%nat -> term data x = 0.
Proof.
  intros H. unfold term; cbv zeta. rewrite H.
  destruct (Rlt_dec 0 _) as [Hpos|_]; [|reflexivity].
  exfalso. simpl in Hpos. unfold Rdiv in Hpos. rewrite Rmult_0_l in Hpos. lra.
Qed.

Lemma term_everywhere x data :
  data <> [] -> count x data = length data -> term data x = 0.
Proof.
  intros Hne H. unfold term; cbv zeta. rewrite H.
  assert (Hlen : 0 < INR (length data)).
  { apply lt_0_INR. destruct data; [congruence | simpl; lia]. }
  replace (INR (length data) / INR (length data)) with 1 by (field; lra).
  rewrite log_1. destruct (Rlt_dec 0 1); ring.
Qed.

Lemma count_constant b data x :
  (forall c, In c data -> c = b) ->
  count x data = if Nat.eqb (Byte.to_nat b) x then length data else 0%nat.
Proof.
  induction data as [|c rest IH]; intros H; simpl.
  - now destruct (Nat.eqb _ _).
  - rewrite (H c) by now left.
    rewrite IH by (intros; apply H; now right).
    destruct (Nat.eqb _ _); reflexivity.
Qed.

Lemma calculate_entropy_constant b data :
  data <> [] ->
  (forall c, In c data -> c = b) ->
  calculate_entropy data = 0.
Proof.
  intros Hne Hall. rewrite calculate_entropy_sum by assumption.
  apply Rsum_zero. intros x _.
  pose proof (count_constant b data x Hall) as Hc.
  destruct (Nat.eqb (Byte.to_nat b) x).
  - now apply term_everywhere.
  - now apply term_absent.
Qed.

(** A byte occurs at most once in a sequence without repetition. *)
Lemma count_NoDup x data : NoDup data -> (count x data <= 1)%nat.
Proof.
  induction 1 as [|b rest Hnotin _ IH]; simpl.
  - lia.
  - destruct (Nat.eqb_spec (Byte.to_nat b) x) as [Hx|_]; [|lia].
    assert (count x rest = 0%nat); [|lia].
    clear IH. induction rest as [|c rest IH]; simpl; [reflexivity|].
    destruct (Nat.eqb_spec (Byte.to_nat c) x) as [Hc|_].
    + exfalso. apply Hnotin. left.
      pose proof (Byte.of_to_nat b) as Eb. pose proof (Byte.of_to_nat c) as Ec.
      rewrite Hx in Eb. rewrite Hc in Ec. congruence.
    + apply IH. intros Hin. apply Hnotin. now right.
Qed.

Lemma term_once x data :
  data <> [] ->
  (count x data <= 1)%nat ->
  term data x = INR (count x data) * (log (INR (length data)) 2 / INR (length data)).
Proof.
  intros Hne Hle.
  assert (Hlen : 0 < INR (length data)).
  { apply lt_0_INR. destruct data; [congruence | simpl; lia]. }
  destruct (count x data) as [|[|n]] eqn:Hc; [| |lia].
  - rewrite term_absent by assumption. simpl. ring.
  - unfold term; cbv zeta. rewrite Hc. simpl INR.
    destruct (Rlt_dec 0 (1 / INR (length data))) as [_|Hn].
    + replace (1 / INR (length data)) with (/ INR (length data))
        by (field; lra).
      unfold log. rewrite ln_Rinv by assumption.
      pose proof ln_2_pos. field. lra.
    + exfalso. apply Hn. unfold Rdiv. rewrite Rmult_1_l.
      now apply Rinv_0_lt_compat.
Qed.

(** The score of a sequence of [n] distinct bytes is [log2 n]. *)
Lemma calculate_entropy_NoDup data :
  data <> [] -> NoDup data ->
  calculate_entropy data = log (INR (length data)) 2.
Proof.
  intros Hne Hnd.
  assert (Hlen : 0 < INR (length data)).
  { apply lt_0_INR. destruct data; [congruence | simpl; lia]. }
  rewrite calculate_entropy_sum by assumption.
  rewrite (map_ext (term data)
             (fun x => (log (INR (length data)) 2 / INR (length data))
                       * INR (count x data) + 0)).
  - rewrite (Rsum_affine (fun x => INR (count x data))).
    rewrite (Rsum_INR (fun x => count x data)), total_count. field. lra.
  - intros x. rewrite term_once by (auto using count_NoDup). ring.
Qed.

Lemma every_byte_NoDup : NoDup every_byte.
Proof.
  apply (NoDup_map_inv Byte.to_nat).
  replace (map Byte.to_nat every_byte) with (seq 0 256) by (vm_compute; reflexivity).
  apply seq_NoDup.
Qed.

Example calculate_entropy_every_byte : calculate_entropy every_byte = 8.
Proof.
  rewrite calculate_entropy_NoDup by (discriminate || apply every_byte_NoDup).
  replace (INR (length every_byte)) with 256.
  - unfold log. rewrite ln_256. pose proof ln_2_pos. field. lra.
  - replace (length every_byte) with 256%nat by (vm_compute; reflexivity).
    rewrite (INR_IZR_INZ 256). reflexivity.
Qed.

Example calculate_entropy_two_bytes : calculate_entropy [x41; x42] = 1.
Proof.
  rewrite calculate_entropy_NoDup.
  - simpl length. unfold log. replace (INR 2) with 2 by (simpl; ring).
    pose proof ln_2_pos. field. lra.
  - discriminate.
  - repeat constructor; simpl; intuition discriminate.
Qed.

(** ** Laws of the effects *)

Section Effects.

Context {A B C : Type}.

Lemma bind_ret_l (a : A) (k : A -> M B) : bind (ret a) k = k a.
Proof. unfold bind, ret. destruct (k a). reflexivity. Qed.

Lemma bind_raise (e : exn) (k : A -> M B) : bind (raise e) k = raise e.
Proof. reflexivity. Qed.


End Effects.

Lemma bind_ret_r {A} (m : M A) : bind m ret = m.
Proof.
  destruct m as [l [a|e]]; simpl; [|reflexivity]. now rewrite app_nil_r.
Qed.

Lemma bind_unit_ret (m : M unit) : (m ;; ret tt) = m.
Proof.
  destruct m as [l [[]|e]]; simpl; [|reflexivity]. now rewrite app_nil_r.
Qed.


(** ** Which exceptions leave the scanner *)

Lemma no_OSError_bind {A B} (m : M A) (k : A -> M B) :
  no_OSError m -> (forall a, no_OSError (k a)) -> no_OSError (bind m k).
Proof.
  unfold no_OSError. destruct m as [l [a|e]]; simpl; intros Hm Hk.
  - specialize (Hk a). destruct (k a) as [l' o]. exact Hk.
  - exact Hm.
Qed.

Lemma no_OSError_for_each {A} (body : A -> M unit) l :
  (forall x, no_OSError (body x)) -> no_OSError (for_each body l).
Proof.
  intros H. induction l as [|x l IH]; simpl.
  - exact I.
  - apply no_OSError_bind; auto.
Qed.

Lemma try_except_directory_handler m dirpath :
  no_OSError m -> try_except m (directory_handler dirpath) = m.
Proof.
  unfold no_OSError, try_except, directory_handler.
  destruct m as [l [a|e]]; simpl; intros H; [reflexivity|].
  destruct e; try discriminate. simpl. now rewrite app_nil_r.
Qed.

(** What is neither file nor directory is opened and read as a file is. *)
Lemma analyze_file_Other rd e filepath threshold :
  analyze_file (Other rd e) filepath threshold
  = analyze_file (File rd) filepath threshold.
Proof. destruct rd; reflexivity. Qed.

Lemma no_OSError_analyze_file o filepath threshold :
  no_OSError (analyze_file o filepath threshold).
Proof.
  assert (H : forall rd, no_OSError (analyze_file (File rd) filepath threshold)).
  { intros [e|data]; unfold analyze_file, no_OSError; simpl.
    - destruct e; simpl; first [exact I | reflexivity].
    - destruct (Rgt_dec _ _); simpl; exact I. }
  destruct o as [rd|s|rd e].
  - apply H.
  - exact I.
  - rewrite analyze_file_Other. apply H.
Qed.

(** [analyze_directory] as the source writes it: list the directory, visit
    each entry, all inside the [try]. *)
Lemma analyze_directory_eq o dirpath threshold recursive :
  analyze_directory o dirpath threshold recursive
  = try_except
      (entries <- scandir o ;;
       for_each (visit dirpath threshold recursive) entries)
      (directory_handler dirpath).
Proof.
  destruct o as [r|[e|entries]|]; cbn [analyze_directory scandir];
    try reflexivity.
  rewrite bind_ret_l. reflexivity.
Qed.

(** Whatever the body does, the [except] clauses of [analyze_directory] let
    no [OSError] through. *)
Lemma no_OSError_directory_handler (m : M unit) dirpath :
  no_OSError (try_except m (directory_handler dirpath)).
Proof.
  unfold no_OSError, try_except, directory_handler.
  destruct m as [l [[]|e]]; [exact I|].
  destruct e; simpl; first [exact I | reflexivity].
Qed.

Lemma no_OSError_analyze_directory o dirpath threshold recursive :
  no_OSError (analyze_directory o dirpath threshold recursive).
Proof.
  rewrite analyze_directory_eq. apply no_OSError_directory_handler.
Qed.

Lemma no_OSError_visit dirpath threshold recursive en :
  no_OSError (visit dirpath threshold recursive en).
Proof.
  destruct en as [nm child]. unfold visit.
  destruct (is_file child).
  - apply no_OSError_bind; [apply no_OSError_analyze_file | intros; exact I].
  - destruct (is_dir child && recursive).
    + apply no_OSError_analyze_directory.
    + exact I.
Qed.

(** A directory that lists: the [try] of [analyze_directory] never fires,
    and the scan is the loop over the entries. *)
Lemma analyze_directory_listed entries dirpath threshold recursive :
  analyze_directory (Dir (inr entries)) dirpath threshold recursive
  = for_each (visit dirpath threshold recursive) entries.
Proof.
  rewrite analyze_directory_eq. cbn [scandir]. rewrite bind_ret_l.
  apply try_except_directory_handler, no_OSError_for_each.
  intros. apply no_OSError_visit.
Qed.


(** ** [analyze_file], case by case *)

Arguments calculate_entropy : simpl never.

Lemma analyze_file_readable data filepath threshold :
  analyze_file (File (inr data)) filepath threshold
  = if Rgt_dec (calculate_entropy data) threshold
    then ([debug_entropy filepath (calculate_entropy data);
           warning_exceeds filepath threshold (calculate_entropy data)],
          Return true)
    else ([debug_entropy filepath (calculate_entropy data)], Return false).
Proof.
  unfold analyze_file. simpl.
  destruct (Rgt_dec (calculate_entropy data) threshold); reflexivity.
Qed.

Lemma analyze_file_flags data filepath threshold :
  returns (analyze_file (File (inr data)) filepath threshold) true
  <-> calculate_entropy data > threshold.
Proof.
  rewrite analyze_file_readable. unfold returns.
  destruct (Rgt_dec (calculate_entropy data) threshold); simpl; split;
    intros H; try assumption; try reflexivity; try discriminate; contradiction.
Qed.

Lemma analyze_file_passes data filepath threshold :
  returns (analyze_file (File (inr data)) filepath threshold) false
  <-> calculate_entropy data <= threshold.
Proof.
  rewrite analyze_file_readable. unfold returns.
  destruct (Rgt_dec (calculate_entropy data) threshold); simpl; split;
    intros H; try reflexivity; try discriminate; lra.
Qed.

Lemma analyze_file_unreadable o e filepath threshold :
  open_read o = raise e ->
  is_OSError e = true ->
  analyze_file o filepath threshold
  = ([if is_FileNotFoundError e
      then error_file_not_found filepath
      else error_reading_file filepath e],
     Return false).
Proof.
  intros Hread Hos. unfold analyze_file. rewrite Hread, bind_raise.
  destruct e; try discriminate; reflexivity.
Qed.

(** An exception that is no [OSError] is not caught. *)
Lemma analyze_file_propagates filepath threshold :
  analyze_file (File (inl MemoryError)) filepath threshold = raise MemoryError.
Proof. reflexivity. Qed.

(** ** The scenarios of the specification *)

Example scenario_low_entropy :
  analyze_file (File (inr (repeat x41 100))) "/d/a.txt" 4.5
  = ([debug_entropy "/d/a.txt" 0], Return false).
Proof.
  rewrite analyze_file_readable.
  assert (E : calculate_entropy (repeat x41 100) = 0).
  { apply (calculate_entropy_constant x41); [discriminate|].
    intros c Hc. now apply repeat_spec in Hc. }
  rewrite E. destruct (Rgt_dec 0 4.5); [lra | reflexivity].
Qed.

Example scenario_high_entropy :
  analyze_file (File (inr every_byte)) "/d/b.bin" 4.5
  = ([debug_entropy "/d/b.bin" 8; warning_exceeds "/d/b.bin" 4.5 8],
     Return true).
Proof.
  rewrite analyze_file_readable, calculate_entropy_every_byte.
  destruct (Rgt_dec 8 4.5); [reflexivity | lra].
Qed.

Example scenario_subdirectory_recursive :
  analyze_directory
    (Dir (inr [("sub"%string, Dir (inr [("k.bin"%string, File (inr every_byte))]))]))
    "/d" 4.5 true
  = ([debug_entropy "/d/sub/k.bin" 8; warning_exceeds "/d/sub/k.bin" 4.5 8],
     Return tt).
Proof.
  rewrite analyze_directory_listed. cbn [for_each visit is_file is_dir andb].
  rewrite analyze_directory_listed. cbn [for_each visit is_file].
  replace (entry_path (entry_path "/d" "sub") "k.bin") with "/d/sub/k.bin"%string
    by reflexivity.
  rewrite analyze_file_readable, calculate_entropy_every_byte.
  destruct (Rgt_dec 8 4.5); [reflexivity | lra].
Qed.

Example scenario_subdirectory_nonrecursive :
  analyze_directory
    (Dir (inr [("sub"%string, Dir (inr [("k.bin"%string, File (inr every_byte))]))]))
    "/d" 4.5 false
  = ([], Return tt).
Proof.
  rewrite analyze_directory_listed. reflexivity.
Qed.

Example scenario_unreadable_sibling :
  analyze_directory
    (Dir (inr [("locked"%string, File (inl PermissionError));
               ("a.txt"%string, File (inr (repeat x41 100)))]))
    "/d" 4.5 false
  = ([error_reading_file "/d/locked" PermissionError;
      debug_entropy "/d/a.txt" 0],
     Return tt).
Proof.
  rewrite analyze_directory_listed. cbn [for_each visit is_file].
  replace (entry_path "/d" "locked") with "/d/locked"%string by reflexivity.
  replace (entry_path "/d" "a.txt") with "/d/a.txt"%string by reflexivity.
  rewrite (analyze_file_unreadable _ PermissionError) by reflexivity.
  rewrite scenario_low_entropy. reflexivity.
Qed.

(** * The claims *)

(** ** The scorer *)

(** C1.  On a byte sequence of positive length, [calculate_entropy] is the
    Shannon entropy of the byte-value distribution: with [p v] the count of
    [v] over the length, the sum of [- p v * log2 (p v)] over exactly the
    values [v] of [0..255] with [p v > 0]. *)
Theorem calculate_entropy_shannon (d : bytes) :
  (0 < length d)%nat -> calculate_entropy d = shannon_entropy d.
Proof.
  intros Hlen.
  rewrite calculate_entropy_sum by (destruct d; [simpl in Hlen; lia | discriminate]).
  unfold shannon_entropy. rewrite Rsum_filter. f_equal.
  apply map_ext. intros v. unfold term, positive_p, p, log, log2; cbv zeta.
  rewrite <- count_occurrences.
  destruct (Rlt_dec 0 (INR (count v d) / INR (length d))); ring.
Qed.

Lemma calculate_entropy_shannon_witness :
  (0 < length [x41; x42; x41])%nat
  /\ calculate_entropy [x41; x42; x41] = shannon_entropy [x41; x42; x41].
Proof.
  split; [simpl; lia | apply calculate_entropy_shannon; simpl; lia].
Defined.

(** With exact arithmetic the score of any byte sequence, the empty one
    included, lies between 0 and 8.  In double precision the sum of the
    rounded terms can pass 8 in the last place; that is outside this
    development. *)
Lemma calculate_entropy_range (d : bytes) : 0 <= calculate_entropy d <= 8.
Proof.
  destruct d as [|b rest] eqn:E.
  - unfold calculate_entropy. lra.
  - rewrite <- E. assert (Hne : d <> []) by (rewrite E; discriminate).
    rewrite calculate_entropy_sum by assumption. split.
    + apply Rsum_nonneg. intros. now apply term_nonneg.
    + pose proof ln_2_pos as H2.
      eapply Rle_trans.
      * apply (Rsum_le _ (fun x => (8 - / ln 2)
                                   * (INR (count x d) / INR (length d))
                                   + / 256 / ln 2)).
        intros x _. pose proof (term_upper x d Hne) as H.
        revert H. generalize (INR (count x d) / INR (length d)).
        intros q H.
        replace ((8 - / ln 2) * q + / 256 / ln 2)
          with (8 * q + (/ 256 - q) / ln 2) by (field; lra).
        exact H.
      * rewrite (Rsum_affine (fun x => INR (count x d) / INR (length d))).
        rewrite frequencies_sum_1 by assumption.
        replace (INR (length range256)) with 256.
        -- right. field. lra.
        -- unfold range256. rewrite length_seq. simpl. lra.
Qed.

(** C5.  The score of the empty byte sequence is 0. *)
Theorem calculate_entropy_empty : calculate_entropy [] = 0.
Proof. reflexivity. Qed.

(** C6.  The score of a byte sequence of positive length whose bytes all
    have one value is 0. *)
Theorem calculate_entropy_single_value (b : byte) (d : bytes) :
  (0 < length d)%nat ->
  (forall c, In c d -> c = b) ->
  calculate_entropy d = 0.
Proof.
  intros Hlen Hall. apply (calculate_entropy_constant b); [|assumption].
  destruct d; [simpl in Hlen; lia | discriminate].
Qed.

Lemma calculate_entropy_single_value_witness :
  (0 < length (repeat x41 100))%nat
  /\ (forall c, In c (repeat x41 100) -> c = x41)
  /\ calculate_entropy (repeat x41 100) = 0.
Proof.
  assert (Hall : forall c, In c (repeat x41 100) -> c = x41)
    by (intros c Hc; now apply repeat_spec in Hc).
  split; [simpl; lia | split; [exact Hall|]].
  apply (calculate_entropy_single_value x41); [simpl; lia | exact Hall].
Defined.

(** C7.  The score is invariant under permutation of the bytes: it depends
    on how often each value occurs, not on where. *)
Theorem calculate_entropy_permutation (d d' : bytes) :
  Permutation d d' -> calculate_entropy d' = calculate_entropy d.
Proof.
  intros Hp. destruct d as [|b rest] eqn:E.
  - apply Permutation_nil in Hp. now subst.
  - rewrite <- E in *.
    assert (Hne : d <> []) by (rewrite E; discriminate).
    assert (Hne' : d' <> []).
    { intros ->. apply Permutation_sym, Permutation_nil in Hp. contradiction. }
    rewrite !calculate_entropy_sum by assumption.
    f_equal. apply map_ext. intros x. unfold term.
    now rewrite (count_Permutation x d d' Hp), (Permutation_length Hp).
Qed.

Lemma calculate_entropy_permutation_witness :
  Permutation [x41; x42; x43; x41] [x43; x41; x41; x42]
  /\ calculate_entropy [x43; x41; x41; x42]
     = calculate_entropy [x41; x42; x43; x41].
Proof.
  assert (Hp : Permutation [x41; x42; x43; x41] [x43; x41; x41; x42]).
  { apply Permutation_trans with (l' := [x41; x43; x42; x41]).
    - apply perm_skip, perm_swap.
    - apply Permutation_trans with (l' := [x43; x41; x42; x41]).
      + apply perm_swap.
      + apply perm_skip, perm_skip, perm_swap. }
  split; [exact Hp | now apply calculate_entropy_permutation].
Defined.

(** ** The scanner *)

(** C2.  On a file whose bytes are read, [analyze_file] returns true exactly
    when the score is strictly above the threshold, and false exactly when
    it is not; a file whose score equals the threshold is not flagged. *)
Theorem analyze_file_strict (data : bytes) (filepath : string) (threshold : R) :
  (returns (analyze_file (File (inr data)) filepath threshold) true
   <-> calculate_entropy data > threshold)
  /\ (returns (analyze_file (File (inr data)) filepath threshold) false
      <-> ~ calculate_entropy data > threshold)
  /\ returns (analyze_file (File (inr data)) filepath (calculate_entropy data))
       false.
Proof.
  split; [apply analyze_file_flags|]. split.
  - rewrite analyze_file_passes. split; intros H; lra.
  - apply analyze_file_passes. lra.
Qed.

(** C3, as amended.  When opening or reading fails with an exception of the
    [OSError] family (file not found, permission denied, a directory in
    place of a regular file, any other I/O error), [analyze_file] raises
    nothing: it logs one error record for the path and returns false. *)
Theorem analyze_file_failure (o : fsobj) (e : exn) (filepath : string)
    (threshold : R) :
  open_read o = raise e ->
  is_OSError e = true ->
  returns (analyze_file o filepath threshold) false
  /\ logged (analyze_file o filepath threshold)
     = [if is_FileNotFoundError e
        then error_file_not_found filepath
        else error_reading_file filepath e].
Proof.
  intros Hread Hos.
  rewrite (analyze_file_unreadable o e) by assumption. split; reflexivity.
Qed.

Lemma analyze_file_failure_witness :
  open_read (File (inl FileNotFoundError)) = raise FileNotFoundError
  /\ is_OSError FileNotFoundError = true
  /\ returns (analyze_file (File (inl FileNotFoundError)) "/d/gone" 4.5) false
  /\ logged (analyze_file (File (inl FileNotFoundError)) "/d/gone" 4.5)
     = [error_file_not_found "/d/gone"].
Proof.
  split; [reflexivity | split; [reflexivity|]].
  apply (analyze_file_failure (File (inl FileNotFoundError)) FileNotFoundError);
    reflexivity.
Defined.

(** C3, as stated, fails: a read that ends in [MemoryError] (a file too
    large for memory) is a failed read, and the exception leaves
    [analyze_file], which logs nothing and returns nothing. *)
Lemma analyze_file_failure_counterexample :
  open_read (File (inl MemoryError)) = raise MemoryError
  /\ analyze_file (File (inl MemoryError)) "/d/huge" 4.5
     = ([], Raise MemoryError)
  /\ ~ returns (analyze_file (File (inl MemoryError)) "/d/huge" 4.5) false.
Proof.
  split; [reflexivity | split; [reflexivity|]].
  unfold returns. cbn. discriminate.
Qed.

(** C10.  Flagging is antitone in the threshold: a file flagged at a
    threshold is flagged at every lower threshold. *)
Theorem analyze_file_antitone (data : bytes) (filepath : string) (t1 t2 : R) :
  t1 <= t2 ->
  returns (analyze_file (File (inr data)) filepath t2) true ->
  returns (analyze_file (File (inr data)) filepath t1) true.
Proof.
  rewrite !analyze_file_flags. intros Hle H2. lra.
Qed.

Lemma analyze_file_antitone_witness :
  4.5 <= 7.5
  /\ returns (analyze_file (File (inr every_byte)) "/d/b.bin" 7.5) true
  /\ returns (analyze_file (File (inr every_byte)) "/d/b.bin" 4.5) true.
Proof.
  assert (H2 : returns (analyze_file (File (inr every_byte)) "/d/b.bin" 7.5) true).
  { apply analyze_file_flags. rewrite calculate_entropy_every_byte. lra. }
  split; [lra | split; [exact H2|]].
  apply (analyze_file_antitone every_byte "/d/b.bin" 4.5 7.5); [lra | exact H2].
Defined.




(** * Further properties *)

(** ** The scorer: sharper bounds *)

Lemma Rsum_pos {A} (f : A -> R) l a :
  (forall x, In x l -> 0 <= f x) -> In a l -> 0 < f a ->
  0 < Rsum (map f l).
Proof.
  induction l as [|x l IH]; intros Hnn Hin Hpos; simpl.
  - contradiction.
  - assert (0 <= f x) by (apply Hnn; now left).
    assert (0 <= Rsum (map f l))
      by (apply Rsum_nonneg; intros; apply Hnn; now right).
    destruct Hin as [->|Hin].
    + lra.
    + assert (0 < Rsum (map f l)); [|lra].
      apply IH; auto. intros; apply Hnn; now right.
Qed.

Lemma length_pos_INR (data : bytes) : data <> [] -> 0 < INR (length data).
Proof.
  intros Hne. apply lt_0_INR. destruct data; [congruence | simpl; lia].
Qed.

Lemma occurs_false data x : occurs data x = false -> count x data = 0%nat.
Proof.
  unfold occurs. destruct (Nat.eqb_spec (count x data) 0); [auto|discriminate].
Qed.

Lemma occurs_true data x : occurs data x = true -> (0 < count x data)%nat.
Proof.
  unfold occurs. destruct (Nat.eqb_spec (count x data) 0); [discriminate|lia].
Qed.

(** The sum of the terms runs over the values that occur. *)
Lemma calculate_entropy_support data :
  data <> [] ->
  calculate_entropy data
  = Rsum (map (term data) (filter (occurs data) range256)).
Proof.
  intros Hne. rewrite calculate_entropy_sum by assumption.
  rewrite Rsum_filter. f_equal. apply map_ext. intros x.
  destruct (occurs data x) eqn:E; [reflexivity|].
  now apply term_absent, occurs_false.
Qed.

Lemma frequencies_support data :
  data <> [] ->
  Rsum (map (fun x => INR (count x data) / INR (length data))
          (filter (occurs data) range256)) = 1.
Proof.
  intros Hne. rewrite <- (frequencies_sum_1 data Hne).
  rewrite Rsum_filter. f_equal. apply map_ext. intros x.
  destruct (occurs data x) eqn:E; [reflexivity|].
  rewrite (occurs_false _ _ E). simpl. unfold Rdiv. ring.
Qed.

Lemma distinct_values_eq data :
  distinct_values data = length (filter (occurs data) range256).
Proof. reflexivity. Qed.

Lemma total_filter_le (c : nat -> bool) (f : nat -> nat) l :
  (forall x, c x = true -> (1 <= f x)%nat) ->
  (length (filter c l) <= total f l)%nat.
Proof.
  intros H. induction l as [|x l IH]; simpl.
  - lia.
  - destruct (c x) eqn:E; simpl.
    + specialize (H x E). lia.
    + lia.
Qed.

Lemma distinct_values_le_length data :
  (distinct_values data <= length data)%nat.
Proof.
  unfold distinct_values. rewrite <- (total_count data).
  apply total_filter_le. intros x Hx. now apply occurs_true.
Qed.

Lemma distinct_values_pos data : data <> [] -> (0 < distinct_values data)%nat.
Proof.
  intros Hne. unfold distinct_values.
  destruct (filter (occurs data) range256) as [|x l] eqn:E; [|simpl; lia].
  exfalso. pose proof (frequencies_support data Hne) as H.
  rewrite E in H. simpl in H. lra.
Qed.

(** Gibbs' inequality for one term, against the uniform distribution on [k]
    values. *)
Lemma term_gibbs_uniform q k :
  0 < q -> 0 < k ->
  - q * log q 2 <= (log k 2 - / ln 2) * q + / k / ln 2.
Proof.
  intros Hq Hk. pose proof ln_2_pos as H2.
  assert (Hy : 0 < / (k * q)).
  { apply Rinv_0_lt_compat. now apply Rmult_lt_0_compat. }
  pose proof (ln_le_minus_1 _ Hy) as H.
  rewrite ln_Rinv, ln_mult in H by (try apply Rmult_lt_0_compat; assumption).
  assert (Hm : q * (- (ln k + ln q)) <= q * (/ (k * q) - 1))
    by (apply Rmult_le_compat_l; lra).
  replace (q * (/ (k * q) - 1)) with (/ k - q) in Hm by (field; lra).
  unfold log. apply (Rmult_le_reg_r (ln 2)); [assumption|].
  replace (- q * (ln q / ln 2) * ln 2) with (- q * ln q) by (field; lra).
  replace (((ln k / ln 2 - / ln 2) * q + / k / ln 2) * ln 2)
    with (q * ln k + (/ k - q)) by (field; lra).
  lra.
Qed.

(** Gibbs' inequality on a list [supp] of values that occur and carry the
    whole distribution. *)
Lemma gibbs_on_support data (supp : list nat) :
  data <> [] ->
  (0 < length supp)%nat ->
  (forall x, In x supp -> (0 < count x data)%nat) ->
  Rsum (map (fun x => INR (count x data) / INR (length data)) supp) = 1 ->
  Rsum (map (term data) supp) <= log (INR (length supp)) 2.
Proof.
  intros Hne Hk Hocc Hsum. pose proof ln_2_pos as H2. apply lt_0_INR in Hk.
  apply Rle_trans
    with (Rsum (map (fun x => (log (INR (length supp)) 2 - / ln 2)
                              * (INR (count x data) / INR (length data))
                              + / INR (length supp) / ln 2) supp)).
  - apply Rsum_le. intros x Hx. apply Hocc in Hx.
    unfold term; cbv zeta.
    assert (Hq : 0 < INR (count x data) / INR (length data)).
    { apply Rdiv_lt_0_compat; [now apply lt_0_INR | now apply length_pos_INR]. }
    destruct (Rlt_dec 0 (INR (count x data) / INR (length data))) as [_|Hn];
      [|contradiction].
    now apply term_gibbs_uniform.
  - rewrite (Rsum_affine (fun x => INR (count x data) / INR (length data))).
    rewrite Hsum. revert Hk. generalize (INR (length supp)). intros k Hk.
    right. field. lra.
Qed.

Lemma calculate_entropy_le_log_distinct data :
  data <> [] ->
  calculate_entropy data <= log (INR (distinct_values data)) 2.
Proof.
  intros Hne. rewrite calculate_entropy_support by assumption.
  pose proof (distinct_values_pos data Hne) as Hk.
  rewrite distinct_values_eq in *. apply gibbs_on_support.
  - assumption.
  - exact Hk.
  - intros x Hx. apply filter_In in Hx as [_ Hx]. now apply occurs_true.
  - now apply frequencies_support.
Qed.

Lemma log_le x y : 0 < x -> x <= y -> log x 2 <= log y 2.
Proof.
  intros Hx [Hlt| ->]; [|lra].
  pose proof ln_2_pos. pose proof (ln_increasing x y Hx Hlt).
  unfold log. apply Rmult_le_compat_r; [|lra].
  left. now apply Rinv_0_lt_compat.
Qed.

Lemma calculate_entropy_le_log_length data :
  data <> [] ->
  calculate_entropy data <= log (INR (length data)) 2.
Proof.
  intros Hne. eapply Rle_trans.
  - now apply calculate_entropy_le_log_distinct.
  - apply log_le.
    + apply lt_0_INR. now apply distinct_values_pos.
    + apply le_INR, distinct_values_le_length.
Qed.

(** ** The scorer: when the score is zero *)

Lemma count_In b data : In b data -> (0 < count (Byte.to_nat b) data)%nat.
Proof.
  induction data as [|c rest IH]; simpl; [contradiction|].
  intros [->|Hin].
  - rewrite Nat.eqb_refl. lia.
  - specialize (IH Hin). lia.
Qed.

Lemma count_two x y data :
  x <> y -> (count x data + count y data <= length data)%nat.
Proof.
  intros Hxy. induction data as [|c rest IH]; simpl; [lia|].
  destruct (Nat.eqb_spec (Byte.to_nat c) x), (Nat.eqb_spec (Byte.to_nat c) y);
    lia.
Qed.

Lemma to_nat_inj a b : Byte.to_nat a = Byte.to_nat b -> a = b.
Proof.
  intros H. pose proof (Byte.of_to_nat a) as Ha.
  pose proof (Byte.of_to_nat b) as Hb. rewrite H in Ha. congruence.
Qed.

Lemma term_pos x data :
  (0 < count x data)%nat -> (count x data < length data)%nat ->
  0 < term data x.
Proof.
  intros Hc Hn. pose proof ln_2_pos as H2.
  assert (Hlen : 0 < INR (length data)) by (apply lt_0_INR; lia).
  apply lt_INR in Hn. apply lt_0_INR in Hc.
  unfold term; cbv zeta.
  set (q := INR (count x data) / INR (length data)).
  assert (Hq0 : 0 < q) by (now apply Rdiv_lt_0_compat).
  assert (Hq1 : q < 1).
  { unfold q. apply (Rmult_lt_reg_r (INR (length data))); [assumption|].
    unfold Rdiv. rewrite Rmult_assoc, Rinv_l by lra. lra. }
  destruct (Rlt_dec 0 q) as [_|Hn0]; [|contradiction].
  pose proof (ln_increasing q 1 Hq0 Hq1) as Hln. rewrite ln_1 in Hln.
  unfold log.
  replace (- q * (ln q / ln 2)) with (q * (- ln q * / ln 2))
    by (unfold Rdiv; ring).
  apply Rmult_lt_0_compat; [assumption|].
  apply Rmult_lt_0_compat; [lra|]. now apply Rinv_0_lt_compat.
Qed.

Lemma calculate_entropy_pos a b data :
  In a data -> In b data -> a <> b -> 0 < calculate_entropy data.
Proof.
  intros Ha Hb Hab.
  assert (Hne : data <> []) by (destruct data; [contradiction | discriminate]).
  rewrite calculate_entropy_sum by assumption.
  apply (Rsum_pos _ _ (Byte.to_nat a)).
  - intros. now apply term_nonneg.
  - unfold range256. apply in_seq. pose proof (Byte.to_nat_bounded a). lia.
  - pose proof (count_In a data Ha). pose proof (count_In b data Hb).
    assert (Byte.to_nat a <> Byte.to_nat b)
      by (intros E; now apply Hab, to_nat_inj).
    pose proof (count_two (Byte.to_nat a) (Byte.to_nat b) data).
    apply term_pos; lia.
Qed.

(** ** The scorer: the score is a function of the distribution *)

Lemma term_same_distribution d d' x :
  d <> [] -> d' <> [] ->
  (count x d * length d')%nat = (count x d' * length d)%nat ->
  term d x = term d' x.
Proof.
  intros Hd Hd' H. unfold term; cbv zeta.
  pose proof (length_pos_INR d Hd). pose proof (length_pos_INR d' Hd').
  assert (E : INR (count x d) / INR (length d)
              = INR (count x d') / INR (length d')).
  { apply (f_equal INR) in H. rewrite !mult_INR in H.
    apply (Rmult_eq_reg_r (INR (length d) * INR (length d'))).
    - transitivity (INR (count x d) * INR (length d')); [field; lra|].
      rewrite H. field; lra.
    - apply Rmult_integral_contrapositive_currified; lra. }
  now rewrite E.
Qed.

Lemma calculate_entropy_distribution d d' :
  d <> [] -> d' <> [] ->
  (forall x, (count x d * length d')%nat = (count x d' * length d)%nat) ->
  calculate_entropy d = calculate_entropy d'.
Proof.
  intros Hd Hd' H. rewrite !calculate_entropy_sum by assumption.
  f_equal. apply map_ext. intros x. now apply term_same_distribution.
Qed.

Lemma count_times x data k : count x (times data k) = (k * count x data)%nat.
Proof.
  induction k as [|k IH]; simpl; [reflexivity|].
  induction data as [|b rest IHd]; simpl.
  - rewrite IH. simpl. lia.
  - change (count x ((b :: rest) ++ times (b :: rest) k)
            = (count x (b :: rest) + k * count x (b :: rest))%nat).
    clear IHd. rewrite <- IH. generalize (times (b :: rest) k). intros t.
    generalize (b :: rest). intros l. induction l as [|c l IHl]; simpl.
    + reflexivity.
    + rewrite IHl. lia.
Qed.

Lemma length_times data k : length (times data k) = (k * length data)%nat.
Proof.
  induction k as [|k IH]; simpl; [reflexivity|].
  now rewrite length_app, IH.
Qed.

(** ** The scorer: every value equally often *)

Lemma calculate_entropy_uniform data c :
  (0 < c)%nat ->
  (forall x, (x < 256)%nat -> count x data = c) ->
  calculate_entropy data = 8.
Proof.
  intros Hc Hall. pose proof ln_2_pos as H2.
  assert (Hlen : length data = (256 * c)%nat).
  { rewrite <- (total_count data). unfold range256.
    assert (G : forall s n, (s + n <= 256)%nat ->
                total (fun v => count v data) (seq s n) = (n * c)%nat).
    { intros s n. revert s. induction n as [|n IH]; intros s Hs; simpl.
      - reflexivity.
      - rewrite Hall by lia. rewrite IH by lia. reflexivity. }
    apply (G 0%nat 256%nat). lia. }
  assert (Hne : data <> []) by (destruct data; [simpl in Hlen; lia | discriminate]).
  assert (Hc' : 0 < INR c) by now apply lt_0_INR.
  rewrite calculate_entropy_sum by assumption.
  rewrite (map_ext_in (term data) (fun _ => 0 * 0 + 8 / 256)).
  - rewrite (Rsum_affine (fun _ : nat => 0)).
    replace (INR (length range256)) with 256.
    + field.
    + unfold range256. rewrite length_seq, (INR_IZR_INZ 256). reflexivity.
  - intros x Hx. apply in_seq in Hx. unfold term; cbv zeta.
    rewrite Hall, Hlen by lia. rewrite mult_INR.
    replace (INR 256) with 256 by (rewrite (INR_IZR_INZ 256); reflexivity).
    replace (INR c / (256 * INR c)) with (/ 256) by (field; lra).
    destruct (Rlt_dec 0 (/ 256)) as [_|Hn]; [|lra].
    unfold log. rewrite ln_Rinv, ln_256 by lra. field. lra.
Qed.

(** ** The scanner: induction on the file system *)

Lemma fsobj_induction (P : fsobj -> Prop) :
  (forall r, P (File r)) ->
  (forall e, P (Dir (inl e))) ->
  (forall entries,
     Forall (fun en : entry => P (snd en)) entries -> P (Dir (inr entries))) ->
  (forall r e, P (Other r e)) ->
  forall o, P o.
Proof.
  intros Hfile Hfail Hdir Hother. fix IH 1.
  intros [r|[e|entries]|].
  - apply Hfile.
  - apply Hfail.
  - apply Hdir. induction entries as [|[nm child] rest IHrest].
    + constructor.
    + constructor; [apply IH | exact IHrest].
  - apply Hother.
Qed.

(** ** The scanner: what is logged *)

Lemma logged_bind {A B} (m : M A) (k : A -> M B) r :
  In r (logged (bind m k)) ->
  In r (logged m) \/ exists a, In r (logged (k a)).
Proof.
  unfold logged. destruct m as [l [a|e]]; simpl.
  - destruct (k a) as [l' o] eqn:E. simpl. intros H.
    apply in_app_or in H as [H|H]; [now left|].
    right. exists a. now rewrite E.
  - now left.
Qed.

Lemma logged_for_each {A} (body : A -> M unit) l r :
  In r (logged (for_each body l)) ->
  exists x, In x l /\ In r (logged (body x)).
Proof.
  induction l as [|x l IH]; cbn [for_each].
  - intros [].
  - fold (for_each body). intros H. apply logged_bind in H as [H|[_ H]].
    + exists x. split; [now left | assumption].
    + destruct (IH H) as [y [Hy Hr]]. exists y. split; [now right | assumption].
Qed.

Lemma logged_analyze_file o filepath threshold r :
  In r (logged (analyze_file o filepath threshold)) ->
  record_path r = filepath
  /\ (is_warning r = true ->
      exists data, open_read o = ret data
                   /\ calculate_entropy data > threshold).
Proof.
  assert (Hother : forall rd e, open_read (Other rd e) = open_read (File rd))
    by (intros [x|d] e; reflexivity).
  destruct o as [rd|s|rd e0]; [| |rewrite analyze_file_Other, Hother].
  2: { cbn. intros [<-|[]]. split; [reflexivity | discriminate]. }
  all: destruct rd as [e|data].
  all: try (destruct e; cbn; intros H; try (now destruct H);
            destruct H as [<-|[]]; split; try reflexivity; discriminate).
  all: rewrite analyze_file_readable;
    destruct (Rgt_dec (calculate_entropy data) threshold) as [Hgt|Hle]; cbn;
    [ intros [<-|[<-|[]]]; (split; [reflexivity|]); intros _;
      exists data; now split
    | intros [<-|[]]; split; [reflexivity | discriminate] ].
Qed.

Lemma logged_directory_handler (m : M unit) dirpath r :
  In r (logged (try_except m (directory_handler dirpath))) ->
  In r (logged m) \/ (record_path r = dirpath /\ is_warning r = false).
Proof.
  unfold logged, try_except, directory_handler.
  destruct m as [l [[]|e]]; simpl; [now left|].
  destruct e; simpl; rewrite ?app_nil_r; intros H;
    try (now left);
    apply in_app_or in H as [H|[<-|[]]]; (now left) || (right; now split).
Qed.

(** Every record of a scan satisfies [P], as soon as the records of the
    files and of the failed listings do, for a [P] that holds for a
    directory when it holds for one of its entries. *)
Lemma analyze_directory_logged (P : string -> record -> Prop) threshold recursive :
  (forall dirpath r,
     record_path r = dirpath -> is_warning r = false -> P dirpath r) ->
  (forall dirpath nm o r,
     In r (logged (analyze_file o (entry_path dirpath nm) threshold)) ->
     P dirpath r) ->
  (forall dirpath nm r, P (entry_path dirpath nm) r -> P dirpath r) ->
  forall o dirpath r,
    In r (logged (analyze_directory o dirpath threshold recursive)) ->
    P dirpath r.
Proof.
  intros Hdir Hfile Hdown o.
  induction o as [rd|e|entries IH|rd e] using fsobj_induction;
    intros dirpath r Hr;
    rewrite analyze_directory_eq in Hr;
    apply logged_directory_handler in Hr as [Hr|[Hp Hw]];
    try (now apply Hdir); cbn [scandir] in Hr; try (now destruct Hr).
  rewrite bind_ret_l in Hr. apply logged_for_each in Hr as [[nm child] [Hin Hr]].
  unfold visit in Hr. destruct (is_file child).
  - apply logged_bind in Hr as [Hr|[_ []]]. now apply (Hfile dirpath nm child).
  - destruct (is_dir child && recursive); [|now destruct Hr].
    apply (Hdown dirpath nm). rewrite Forall_forall in IH.
    now apply (IH (nm, child) Hin).
Qed.

(** ** Paths *)

Lemma prefix_append a b : prefix a (a ++ b) = true.
Proof.
  induction a as [|c a IH]; simpl.
  - now destruct b.
  - destruct (ascii_dec c c); [exact IH | congruence].
Qed.

Lemma prefix_refl a : prefix a a = true.
Proof.
  induction a as [|c a IH]; simpl.
  - reflexivity.
  - destruct (ascii_dec c c); [exact IH | congruence].
Qed.

Lemma prefix_trans a b c :
  prefix a b = true -> prefix b c = true -> prefix a c = true.
Proof.
  revert b c. induction a as [|x a IH]; intros b c Hab Hbc.
  - now destruct c.
  - destruct b as [|y b]; [discriminate|]. destruct c as [|z c]; [discriminate|].
    simpl in *. destruct (ascii_dec x y) as [->|]; [|discriminate].
    destruct (ascii_dec y z) as [->|]; [|discriminate].
    now apply (IH b c).
Qed.

Lemma prefix_entry_path dirpath nm : prefix dirpath (entry_path dirpath nm) = true.
Proof.
  unfold entry_path. destruct dirpath as [|c rest]; [now destruct nm|].
  destruct (endswith_sep (String c rest)); apply prefix_append.
Qed.

(** ** The scanner: when the scan returns *)





(** ** The scanner: thresholds *)

Lemma log_22 : log 22 2 <= 4.5.
Proof.
  pose proof ln_2_pos as H2. unfold log.
  apply (Rmult_le_reg_r (ln 2)); [assumption|].
  replace (ln 22 / ln 2 * ln 2) with (ln 22) by (field; lra).
  assert (H : 2 * ln 22 <= 9 * ln 2); [|lra].
  replace (2 * ln 22) with (ln (22 * 22)) by (rewrite ln_mult by lra; ring).
  replace (9 * ln 2) with (ln (2 ^ 9)) by (rewrite ln_pow by lra; simpl; ring).
  assert (Hlt : 22 * 22 < 2 ^ 9) by (simpl; lra).
  left. apply ln_increasing; lra.
Qed.

Lemma append_cancel_l (a b c : string) :
  (a ++ b)%string = (a ++ c)%string -> b = c.
Proof.
  induction a as [|x a IH]; simpl; intros H.
  - exact H.
  - injection H as H. now apply IH.
Qed.

Lemma warning_analyze_file o filepath threshold f t e :
  In (warning_exceeds f t e) (logged (analyze_file o filepath threshold)) ->
  f = filepath /\ t = threshold /\ e > threshold.
Proof.
  destruct o as [rd|s|rd e0]; [| |rewrite analyze_file_Other].
  2: { cbn. intros [H|[]]. discriminate. }
  all: destruct rd as [x|data].
  all: try (destruct x; cbn; intros H; try (now destruct H);
            destruct H as [H|[]]; discriminate).
  all: rewrite analyze_file_readable;
    destruct (Rgt_dec (calculate_entropy data) threshold) as [Hgt|Hle]; cbn;
    [ intros [H|[H|[]]]; [discriminate|]; injection H as <- <- <-; auto
    | intros [H|[]]; discriminate ].
Qed.

(** ** The generator *)

Lemma length_append (a b : string) :
  String.length (a ++ b) = (String.length a + String.length b)%nat.
Proof.
  induction a as [|x a IH]; simpl; [reflexivity | now rewrite IH].
Qed.

Lemma append_cancel_r (a b c : string) :
  (a ++ c)%string = (b ++ c)%string -> a = b.
Proof.
  revert b. induction a as [|x a IH]; intros [|y b] H; simpl in H.
  - reflexivity.
  - apply (f_equal String.length) in H. simpl in H.
    rewrite length_append in H. lia.
  - apply (f_equal String.length) in H. simpl in H.
    rewrite length_append in H. lia.
  - injection H as -> H. f_equal. now apply IH.
Qed.

Lemma str_inj i j : str i = str j -> i = j.
Proof.
  unfold str. intros H. apply Unsigned.to_uint_inj.
  pose proof (NilEmpty.usu (Nat.to_uint i)) as Hi.
  pose proof (NilEmpty.usu (Nat.to_uint j)) as Hj.
  rewrite H in Hi. congruence.
Qed.

Lemma os_path_join_relative a b c :
  startswith_sep b = false -> startswith_sep c = false ->
  os_path_join a b = os_path_join a c -> b = c.
Proof.
  unfold os_path_join. intros -> ->. destruct a as [|x a]; [auto|].
  destruct (endswith_sep (String x a)); intros H.
  - now apply append_cancel_l in H.
  - apply append_cancel_l in H. now injection H.
Qed.

Lemma filename_inj output_dir i j :
  filename output_dir i = filename output_dir j -> i = j.
Proof.
  unfold filename. intros H. apply os_path_join_relative in H;
    [|reflexivity|reflexivity].
  apply (append_cancel_l "fake_sensitive_data_") in H.
  apply append_cancel_r in H. now apply str_inj.
Qed.

Lemma for_eachW_cons {L A} (body : A -> W L unit) x l :
  for_eachW body (x :: l) = bindW (body x) (fun _ => for_eachW body l).
Proof. reflexivity. Qed.

(** The record of each turn of the loop when every failure is an
    [OSError]. *)
Lemma generate_turns (w : gen_world) output_dir (l : list nat) :
  (forall i e, write_result w i = Some e -> is_OSError e = true) ->
  for_eachW (generate_file w output_dir) l
  = (map (fun i => match write_result w i with
                   | None => info_generated (filename output_dir i)
                   | Some e => error_writing (filename output_dir i) e
                   end) l,
     Return tt).
Proof.
  intros Hos. induction l as [|i l IH]; [reflexivity|].
  rewrite for_eachW_cons, IH. cbn [map]. unfold generate_file; cbv zeta.
  destruct (write_result w i) as [e|] eqn:E.
  - unfold try_exceptW, bindW, raiseW. rewrite (Hos i e E). reflexivity.
  - reflexivity.
Qed.

(** * Further results *)

(** ** On [calculate_entropy] *)

(** X4.  The score is 0 exactly when no two bytes of the sequence differ. *)
Theorem entropy_zero_iff_constant (data : bytes) :
  calculate_entropy data = 0
  <-> (forall a b, In a data -> In b data -> a = b).
Proof.
  split.
  - intros Hz a b Ha Hb.
    destruct (Byte.byte_eq_dec a b) as [E|E]; [assumption|].
    pose proof (calculate_entropy_pos a b data Ha Hb E). lra.
  - intros Hall. destruct data as [|c rest]; [reflexivity|].
    apply (calculate_entropy_constant c); [discriminate|].
    intros a Ha. apply Hall; [assumption | now left].
Qed.

(** X5.  Two non-empty sequences in which every byte value has the same
    relative frequency have the same score. *)
Theorem entropy_same_distribution (d d' : bytes) :
  (0 < length d)%nat -> (0 < length d')%nat ->
  (forall x, (count x d * length d')%nat = (count x d' * length d)%nat) ->
  calculate_entropy d = calculate_entropy d'.
Proof.
  intros Hd Hd' H. apply calculate_entropy_distribution; [| |assumption].
  - destruct d; [simpl in Hd; lia | discriminate].
  - destruct d'; [simpl in Hd'; lia | discriminate].
Qed.

Lemma entropy_same_distribution_witness :
  (0 < length [x41; x42])%nat
  /\ (0 < length [x42; x41; x41; x42])%nat
  /\ (forall x, (count x [x41; x42] * length [x42; x41; x41; x42])%nat
                = (count x [x42; x41; x41; x42] * length [x41; x42])%nat)
  /\ calculate_entropy [x41; x42] = calculate_entropy [x42; x41; x41; x42].
Proof.
  assert (H : forall x, (count x [x41; x42] * length [x42; x41; x41; x42])%nat
                        = (count x [x42; x41; x41; x42] * length [x41; x42])%nat).
  { intros x. cbn [count length].
    destruct (Nat.eqb (Byte.to_nat x41) x), (Nat.eqb (Byte.to_nat x42) x);
      reflexivity. }
  split; [simpl; lia | split; [simpl; lia | split; [exact H|]]].
  apply entropy_same_distribution; [simpl; lia | simpl; lia | exact H].
Defined.

(** X6.  A sequence repeated one or more times scores as the sequence
    itself. *)
Theorem entropy_times (data : bytes) (k : nat) :
  calculate_entropy (times data (S k)) = calculate_entropy data.
Proof.
  destruct data as [|b rest] eqn:E.
  - assert (H : times [] (S k) = []) by (induction k; simpl; auto).
    now rewrite H.
  - rewrite <- E. apply calculate_entropy_distribution.
    + rewrite E. discriminate.
    + rewrite E. discriminate.
    + intros x. rewrite count_times, length_times. lia.
Qed.

(** X8.  A byte sequence in which each of the 256 byte values occurs
    equally often, and at least once, scores exactly 8. *)
Theorem entropy_uniform (data : bytes) :
  (0 < length data)%nat ->
  (forall x, (x < 256)%nat -> (256 * count x data)%nat = length data) ->
  calculate_entropy data = 8.
Proof.
  intros Hlen Hall. apply (calculate_entropy_uniform data (count 0 data)).
  - specialize (Hall 0%nat). lia.
  - intros x Hx. pose proof (Hall x Hx). pose proof (Hall 0%nat). lia.
Qed.

Lemma entropy_uniform_witness :
  (0 < length (times every_byte 3))%nat
  /\ (forall x, (x < 256)%nat ->
                (256 * count x (times every_byte 3))%nat
                = length (times every_byte 3))
  /\ calculate_entropy (times every_byte 3) = 8.
Proof.
  assert (Hlen : (0 < length (times every_byte 3))%nat)
    by (vm_compute; lia).
  assert (Hall : forall x, (x < 256)%nat ->
                   (256 * count x (times every_byte 3))%nat
                   = length (times every_byte 3)).
  { assert (H : forallb
                  (fun x => Nat.eqb (256 * count x (times every_byte 3))
                              (length (times every_byte 3)))
                  (seq 0 256) = true) by (vm_compute; reflexivity).
    rewrite forallb_forall in H. intros x Hx. apply Nat.eqb_eq, H, in_seq. lia. }
  split; [exact Hlen | split; [exact Hall|]].
  apply entropy_uniform; [exact Hlen | exact Hall].
Defined.

(** ** On [analyze_file] *)

(** X9.  On a file whose bytes are read, a negative threshold always
    flags, the empty file included. *)
Theorem analyze_file_negative_threshold (data : bytes) (filepath : string)
    (threshold : R) :
  threshold < 0 ->
  returns (analyze_file (File (inr data)) filepath threshold) true.
Proof.
  intros H. pose proof (calculate_entropy_range data) as [H0 _].
  apply analyze_file_flags. lra.
Qed.

Lemma analyze_file_negative_threshold_witness :
  -1 < 0 /\ returns (analyze_file (File (inr [])) "/d/empty" (-1)) true.
Proof.
  split; [lra | apply analyze_file_negative_threshold; lra].
Defined.

(** X11.
  At the default threshold 4.5 of the command line, no file of at
    most 22 bytes is flagged, whatever its bytes. *)
Theorem analyze_file_default_threshold (data : bytes) (filepath : string) :
  (length data <= 22)%nat ->
  returns (analyze_file (File (inr data)) filepath 4.5) false.
Proof.
  intros Hlen. apply analyze_file_passes.
  destruct data as [|b rest] eqn:E.
  - unfold calculate_entropy. lra.
  - rewrite <- E in *. assert (Hne : data <> []) by (rewrite E; discriminate).
    pose proof (calculate_entropy_le_log_length data Hne) as H.
    pose proof log_22 as H22.
    assert (log (INR (length data)) 2 <= log 22 2); [|lra].
    apply log_le; [now apply length_pos_INR|].
    apply le_INR in Hlen.
    replace (INR 22) with 22 in Hlen
      by (rewrite (INR_IZR_INZ 22); reflexivity).
    exact Hlen.
Qed.

Lemma analyze_file_default_threshold_witness :
  (length [x41; x42; x43; x44] <= 22)%nat
  /\ returns (analyze_file (File (inr [x41; x42; x43; x44])) "/d/abcd" 4.5) false.
Proof.
  split; [simpl; lia | apply analyze_file_default_threshold; simpl; lia].
Defined.

(** X12.  Whatever lies at the path, [analyze_file] returns true exactly
    when it has logged a warning record. *)
Theorem analyze_file_flag_iff_warning (o : fsobj) (filepath : string)
    (threshold : R) :
  returns (analyze_file o filepath threshold) true
  <-> (exists r, In r (logged (analyze_file o filepath threshold))
                 /\ is_warning r = true).
Proof.
  split.
  - intros Hret.
    destruct o as [rd|s|rd e0]; [| |rewrite analyze_file_Other in *].
    2: discriminate.
    all: destruct rd as [e|data]; [destruct e; discriminate|].
    all: rewrite analyze_file_readable in *;
      destruct (Rgt_dec _ _); [|discriminate];
      eexists; split; [right; left; reflexivity | reflexivity].
  - intros [r [Hin Hw]].
    destruct (logged_analyze_file _ _ _ _ Hin) as [_ H].
    destruct (H Hw) as [data [Hread Hgt]].
    destruct o as [rd|s|rd e0]; [| |rewrite analyze_file_Other].
    2: discriminate.
    all: destruct rd as [e|data']; [discriminate|].
    all: injection Hread as ->; now apply analyze_file_flags.
Qed.

(** X13.  An exception of [open] or [read] that is not an [OSError] is not
    caught: it leaves [analyze_file], and nothing is logged. *)
Theorem analyze_file_uncaught (o : fsobj) (e : exn) (filepath : string)
    (threshold : R) :
  open_read o = raise e ->
  is_OSError e = false ->
  analyze_file o filepath threshold = raise e.
Proof.
  intros Hread Hos. unfold analyze_file. rewrite Hread, bind_raise.
  destruct e; try discriminate; reflexivity.
Qed.

Lemma analyze_file_uncaught_witness :
  open_read (File (inl MemoryError)) = raise MemoryError
  /\ is_OSError MemoryError = false
  /\ analyze_file (File (inl MemoryError)) "/d/huge" 4.5 = raise MemoryError.
Proof.
  split; [reflexivity | split; [reflexivity|]].
  apply (analyze_file_uncaught (File (inl MemoryError)) MemoryError);
    reflexivity.
Defined.

(** ** On [analyze_directory] *)



(** X15.  Whatever the tree, an exception that leaves [analyze_directory] is
    not an [OSError]. *)
Theorem scan_raises_no_OSError (o : fsobj) (dirpath : string) (threshold : R)
    (recursive : bool) (e : exn) :
  snd (analyze_directory o dirpath threshold recursive) = Raise e ->
  is_OSError e = false.
Proof.
  intros H.
  pose proof (no_OSError_analyze_directory o dirpath threshold recursive) as Hn.
  unfold no_OSError in Hn. now rewrite H in Hn.
Qed.

Lemma scan_raises_no_OSError_witness :
  snd (analyze_directory
         (Dir (inr [("huge"%string, File (inl MemoryError))])) "/d" 4.5 false)
  = Raise MemoryError
  /\ is_OSError MemoryError = false.
Proof.
  split; [reflexivity|].
  apply (scan_raises_no_OSError
           (Dir (inr [("huge"%string, File (inl MemoryError))])) "/d" 4.5 false).
  reflexivity.
Defined.

(** X16.  Every record logged by a scan is about a path that begins with
    the path of the scanned directory. *)
Theorem scan_paths_under_root (o : fsobj) (dirpath : string) (threshold : R)
    (recursive : bool) (r : record) :
  In r (logged (analyze_directory o dirpath threshold recursive)) ->
  prefix dirpath (record_path r) = true.
Proof.
  revert o dirpath r.
  apply (analyze_directory_logged
           (fun dirpath r => prefix dirpath (record_path r) = true)).
  - intros dirpath r <- _. apply prefix_refl.
  - intros dirpath nm o r Hr. apply logged_analyze_file in Hr as [-> _].
    apply prefix_entry_path.
  - intros dirpath nm r H.
    exact (prefix_trans _ _ _ (prefix_entry_path dirpath nm) H).
Qed.

Lemma scan_paths_under_root_witness :
  In (error_reading_file "/d/sub/k.bin" PermissionError)
    (logged
       (analyze_directory
          (Dir (inr [("sub"%string,
                      Dir (inr [("k.bin"%string, File (inl PermissionError))]))]))
          "/d" 4.5 true))
  /\ prefix "/d" (record_path (error_reading_file "/d/sub/k.bin" PermissionError))
     = true.
Proof.
  assert (H : In (error_reading_file "/d/sub/k.bin" PermissionError)
                (logged
                   (analyze_directory
                      (Dir (inr [("sub"%string,
                                  Dir (inr [("k.bin"%string,
                                             File (inl PermissionError))]))]))
                      "/d" 4.5 true)))
    by (left; reflexivity).
  split; [exact H|].
  exact (scan_paths_under_root _ _ _ _ _ H).
Defined.

(** X21.  On a directory without subdirectory entries the recursive flag
    makes no difference. *)
Theorem scan_flag_without_subdirectories (dirpath : string) (threshold : R)
    (entries : list entry) :
  forallb (fun en : entry => negb (is_dir (snd en))) entries = true ->
  analyze_directory (Dir (inr entries)) dirpath threshold true
  = analyze_directory (Dir (inr entries)) dirpath threshold false.
Proof.
  intros H. rewrite !analyze_directory_listed.
  induction entries as [|[nm child] rest IH]; [reflexivity|].
  cbn [forallb snd] in H. apply andb_true_iff in H as [Hc Hrest].
  cbn [for_each]. fold (for_each (visit dirpath threshold true)).
  fold (for_each (visit dirpath threshold false)).
  rewrite (IH Hrest). f_equal. unfold visit.
  destruct (is_file child); [reflexivity|].
  destruct (is_dir child); [discriminate | reflexivity].
Qed.

Lemma scan_flag_without_subdirectories_witness :
  forallb (fun en : entry => negb (is_dir (snd en)))
    [("a.txt"%string, File (inr (repeat x41 100))); ("dev"%string, Other (inr []) NotADirectoryError)] = true
  /\ analyze_directory
       (Dir (inr [("a.txt"%string, File (inr (repeat x41 100)));
                  ("dev"%string, Other (inr []) NotADirectoryError)])) "/d" 4.5 true
     = analyze_directory
         (Dir (inr [("a.txt"%string, File (inr (repeat x41 100)));
                    ("dev"%string, Other (inr []) NotADirectoryError)])) "/d" 4.5 false.
Proof.
  split; [reflexivity | apply scan_flag_without_subdirectories; reflexivity].
Defined.

(** X22.  Every warning record of a scan, at any depth, carries the
    threshold of the scan and a score strictly above it. *)
Theorem scan_warnings_above_threshold (o : fsobj) (dirpath : string)
    (threshold : R) (recursive : bool) (f : string) (t e : R) :
  In (warning_exceeds f t e)
    (logged (analyze_directory o dirpath threshold recursive)) ->
  t = threshold /\ e > threshold.
Proof.
  intros H.
  apply (analyze_directory_logged
           (fun _ r => forall f t e, r = warning_exceeds f t e ->
                                     t = threshold /\ e > threshold)
           threshold recursive) with (o := o) (dirpath := dirpath)
                                      (r := warning_exceeds f t e) (f := f).
  - intros d r _ Hw f' t' e' ->. discriminate.
  - intros d nm o' r Hr f' t' e' ->.
    now apply warning_analyze_file in Hr as [_ [? ?]].
  - intros d nm r Hr. exact Hr.
  - exact H.
  - reflexivity.
Qed.

Lemma scan_warnings_above_threshold_witness :
  In (warning_exceeds "/d/b.bin" 4.5 8)
    (logged
       (analyze_directory
          (Dir (inr [("b.bin"%string, File (inr every_byte))])) "/d" 4.5 false))
  /\ 4.5 = 4.5 /\ 8 > 4.5.
Proof.
  assert (H : In (warning_exceeds "/d/b.bin" 4.5 8)
                (logged
                   (analyze_directory
                      (Dir (inr [("b.bin"%string, File (inr every_byte))]))
                      "/d" 4.5 false))).
  { rewrite analyze_directory_listed. cbn [for_each visit is_file].
    replace (entry_path "/d" "b.bin") with "/d/b.bin"%string by reflexivity.
    rewrite scenario_high_entropy. right. left. reflexivity. }
  split; [exact H|].
  exact (scan_warnings_above_threshold _ _ _ _ _ _ _ H).
Defined.

(** X23.  Two entries of one directory with different names have different
    paths. *)
Theorem entry_path_injective (dirpath nm1 nm2 : string) :
  entry_path dirpath nm1 = entry_path dirpath nm2 -> nm1 = nm2.
Proof.
  unfold entry_path. destruct dirpath as [|c rest]; [auto|].
  destruct (endswith_sep (String c rest)); intros H.
  - now apply append_cancel_l in H.
  - apply append_cancel_l in H. now injection H.
Qed.

Lemma entry_path_injective_witness :
  entry_path "/d" "a.txt" = entry_path "/d" "a.txt"
  /\ "a.txt"%string = "a.txt"%string.
Proof.
  split; [reflexivity | apply (entry_path_injective "/d"); reflexivity].
Defined.

(** ** On [generate_fake_sensitive_data] *)

(** X24.  The files of one run have pairwise different names: no file of
    the run overwrites another. *)
Theorem filename_injective (output_dir : string) (i j : nat) :
  filename output_dir i = filename output_dir j -> i = j.
Proof. apply filename_inj. Qed.

Lemma filename_injective_witness :
  filename "fake_data" 7 = filename "fake_data" 7 /\ 7%nat = 7%nat.
Proof.
  split; [reflexivity | apply (filename_injective "fake_data"); reflexivity].
Defined.

(** X25.  When the output directory exists or is created, and every failed
    write fails with an [OSError], the generator returns and logs one record
    per index of [range(num_files)], in order: the file generated, or the
    error of its write.  A failed write does not stop the later files. *)
Theorem generate_one_record_per_file (w : gen_world) (num_files : Z)
    (output_dir : string) :
  output_dir_exists w = true \/ makedirs_result w = None ->
  (forall i e, write_result w i = Some e -> is_OSError e = true) ->
  generate_fake_sensitive_data w num_files output_dir
  = (map (fun i => match write_result w i with
                   | None => info_generated (filename output_dir i)
                   | Some e => error_writing (filename output_dir i) e
                   end) (range num_files),
     Return tt).
Proof.
  intros Hdir Hos. unfold generate_fake_sensitive_data.
  rewrite (generate_turns w output_dir (range num_files) Hos).
  destruct (output_dir_exists w); simpl.
  - reflexivity.
  - destruct Hdir as [Hd|Hd]; [discriminate|]. rewrite Hd. reflexivity.
Qed.

Lemma generate_one_record_per_file_witness :
  (output_dir_exists sample_gen_world = true
   \/ makedirs_result sample_gen_world = None)
  /\ (forall i e, write_result sample_gen_world i = Some e ->
                  is_OSError e = true)
  /\ generate_fake_sensitive_data sample_gen_world 3 "fake_data"
     = ([info_generated "fake_data/fake_sensitive_data_0.txt";
         error_writing "fake_data/fake_sensitive_data_1.txt" PermissionError;
         info_generated "fake_data/fake_sensitive_data_2.txt"],
        Return tt).
Proof.
  assert (Hdir : output_dir_exists sample_gen_world = true
                 \/ makedirs_result sample_gen_world = None)
    by (right; reflexivity).
  assert (Hos : forall i e, write_result sample_gen_world i = Some e ->
                            is_OSError e = true).
  { intros i e. simpl. destruct (Nat.eqb i 1); [|discriminate].
    intros H. injection H as <-. reflexivity. }
  split; [exact Hdir | split; [exact Hos|]].
  rewrite (generate_one_record_per_file sample_gen_world 3 "fake_data" Hdir Hos).
  reflexivity.
Defined.

(** X26.  When the output directory is missing and [os.makedirs] raises,
    the exception leaves the generator, [OSError] or not: no file is
    written and nothing is logged. *)
Theorem generate_makedirs_failure (w : gen_world) (num_files : Z)
    (output_dir : string) (e : exn) :
  output_dir_exists w = false ->
  makedirs_result w = Some e ->
  generate_fake_sensitive_data w num_files output_dir = ([], Raise e).
Proof.
  intros Hd He. unfold generate_fake_sensitive_data. now rewrite Hd, He.
Qed.

Lemma generate_makedirs_failure_witness :
  output_dir_exists
    {| output_dir_exists := false; makedirs_result := Some PermissionError;
       write_result := fun _ => None |} = false
  /\ makedirs_result
       {| output_dir_exists := false; makedirs_result := Some PermissionError;
          write_result := fun _ => None |} = Some PermissionError
  /\ generate_fake_sensitive_data
       {| output_dir_exists := false; makedirs_result := Some PermissionError;
          write_result := fun _ => None |} 10 "fake_data"
     = ([], Raise PermissionError).
Proof.
  split; [reflexivity | split; [reflexivity|]].
  apply generate_makedirs_failure; reflexivity.
Defined.

(** X27.  With a number of files that is zero or negative the generator
    does no more than make sure of the output directory: it logs nothing,
    attempts no write, and returns, or raises what [os.makedirs] raises. *)
Theorem generate_nothing (w : gen_world) (num_files : Z) (output_dir : string) :
  (num_files <= 0)%Z ->
  generate_fake_sensitive_data w num_files output_dir
  = ([], if output_dir_exists w then Return tt
         else match makedirs_result w with
              | None => Return tt
              | Some e => Raise e
              end).
Proof.
  intros Hn. unfold generate_fake_sensitive_data, range.
  replace (Z.to_nat num_files) with 0%nat by lia.
  destruct (output_dir_exists w); [reflexivity|].
  destruct (makedirs_result w); reflexivity.
Qed.

Lemma generate_nothing_witness :
  (-3 <= 0)%Z
  /\ generate_fake_sensitive_data sample_gen_world (-3) "fake_data"
     = ([], Return tt).
Proof.
  split; [lia|].
  rewrite (generate_nothing sample_gen_world (-3) "fake_data") by lia.
  reflexivity.
Defined.

(** ** On [main] *)

(** X28.  Without [--verbose] and [--generate], [main] on a regular file
    whose bytes are read emits nothing exactly when the score is not
    strictly above the threshold. *)
Theorem main_quiet (data : bytes) (w : gen_world) (a : args) :
  args_generate a = false ->
  args_verbose a = false ->
  fst (main (Some (File (inr data))) w a) = []
  <-> ~ calculate_entropy data > args_threshold a.
Proof.
  intros Hg Hv. unfold main. rewrite Hg, Hv. cbv zeta. unfold of_scan.
  rewrite analyze_file_readable.
  destruct (Rgt_dec (calculate_entropy data) (args_threshold a)) as [Hgt|Hle];
    cbn; split; intros H; try reflexivity; try discriminate;
    try assumption; contradiction.
Qed.

Lemma main_quiet_witness :
  args_generate
    {| args_path := "/d/a.txt"; args_threshold := 4.5; args_recursive := false;
       args_verbose := false; args_generate := false; args_num_files := 10;
       args_output_dir := "fake_data" |} = false
  /\ args_verbose
       {| args_path := "/d/a.txt"; args_threshold := 4.5; args_recursive := false;
          args_verbose := false; args_generate := false; args_num_files := 10;
          args_output_dir := "fake_data" |} = false
  /\ (fst (main (Some (File (inr (repeat x41 100)))) sample_gen_world
             {| args_path := "/d/a.txt"; args_threshold := 4.5;
                args_recursive := false; args_verbose := false;
                args_generate := false; args_num_files := 10;
                args_output_dir := "fake_data" |}) = []
      <-> ~ calculate_entropy (repeat x41 100) > 4.5).
Proof.
  split; [reflexivity | split; [reflexivity|]].
  apply main_quiet; reflexivity.
Defined.


